(** * Blade: the command invocation context

    A shallow embedding of [src/components/command/context/Context.ts]:
    the per-invocation [Context] class of the Blade command framework,
    with its reply/edit life cycle, type resolution and translation
    helpers.

    The chat client ([@kyudiscord/neo]), the dispatcher's resolver
    registry and the language handler are collaborators of the class.
    They are modelled as deterministic oracles over an arbitrary
    collaborator state [W]; every call the context makes on the chat
    client is also appended to a call record, so that "sends a new
    message" and "edits the last one" are observable. *)

From Stdlib Require Import ZArith.
From stdpp Require Import gmap strings list fin_maps.

Set Warnings "-register-all".

Local Open Scope string_scope.
Local Open Scope list_scope.

(** ** JavaScript values *)

(** The values of type [unknown]/[any] that flow through [resolve],
    [translate] and the template tag.  [JObject repr] stands for any
    other value (a number, a plain object, ...), kept together with the
    string its [ToString] conversion produces. *)
Inductive JsValue : Type :=
| JUndefined
| JNull
| JBoolean (b : bool)
| JString (s : string)
| JArray (items : list JsValue)
| JObject (repr : string).

(** [a ?? b] *)
Definition nullish (a b : JsValue) : JsValue :=
  match a with
  | JUndefined | JNull => b
  | _ => a
  end.

(** [ToString]: what [s + v] appends for a string [s].  An array prints
    as [Array.prototype.join(",")], where [undefined] and [null]
    elements print as the empty string. *)
Fixpoint ToString (v : JsValue) : string :=
  match v with
  | JUndefined => "undefined"
  | JNull => "null"
  | JBoolean true => "true"
  | JBoolean false => "false"
  | JString s => s
  | JArray items =>
      String.concat ","
        (map (fun x => match x with
                       | JUndefined | JNull => ""
                       | _ => ToString x
                       end) items)
  | JObject repr => repr
  end.

(** [Dictionary]: a plain object used as a string-keyed map. *)
Abbreviation Dictionary := (gmap string JsValue).

(** [xs[i]] for an integer index: [undefined] out of range. *)
Definition js_index {A} (xs : list A) (i : Z) : option A :=
  if (i <? 0)%Z then None else xs !! Z.to_nat i.

(** [xs.slice(start)]: a negative [start] counts from the end. *)
Definition js_slice {A} (xs : list A) (start : Z) : list A :=
  let len := Z.of_nat (length xs) in
  let k := if (start <? 0)%Z then Z.max (len + start) 0 else Z.min start len in
  drop (Z.to_nat k) xs.

(** ** The chat client library

    The slice of [@kyudiscord/neo] the context consumes.  Users,
    members, guilds and channels are handles identified by their
    snowflake; a message carries the fields the context reads. *)
Module Neo.

Record User := { user_id : string }.
Record Member := { member_id : string }.
Record Guild := { guild_id : string }.
Record TextBasedChannel := { channel_id : string }.
Record Attachment := { url : string }.
Record Embed := { title : string; description : string }.

(** The builder handed to the callback form of [send] and [edit]. *)
Record MessageBuilder := {
  body : option string;
  embed : option Embed
}.

Definition setEmbed (b : MessageBuilder) (e : Embed) : MessageBuilder :=
  {| body := body b; embed := Some e |}.

(** What [send] and [edit] accept: a text, or a builder callback. *)
Inductive MessageArg : Type :=
| Text (s : string)
| Build (f : MessageBuilder -> MessageBuilder).

End Neo.

(** A message is a value here: what the library's object held when it
    was handed to the context.  A change the library makes in place to
    an object it handed over earlier is not part of this record. *)
Module Message.
Record t := {
  id : string;
  author : Neo.User;
  member : option Neo.Member;
  guild : option Neo.Guild;
  channel : Neo.TextBasedChannel;
  attachments : gmap string Neo.Attachment
}.
End Message.

(** A call made on the chat client. *)
Inductive Call : Type :=
| ChannelSend (ch : Neo.TextBasedChannel) (arg : Neo.MessageArg)
| MessageEdit (target : Message.t) (arg : Neo.MessageArg).

(** How a collaborator's promise settles. *)
Inductive Outcome (A : Type) : Type :=
| Resolved (a : A)
| Failed (reason : JsValue).
Arguments Resolved {A} a.
Arguments Failed {A} reason.

(** ** Parsed parameters and flags *)

(** Modelled from the spec: the [Params] and [Flags] classes of
    [./Params] and [./Flags] are not among the sources; the context
    only constructs them empty ("structured parameters, structured
    flags"). *)
Record Params := { params_entries : Dictionary }.
Record Flags := { flags_entries : Dictionary }.
Definition new_Params : Params := {| params_entries := ∅ |}.
Definition new_Flags : Flags := {| flags_entries := ∅ |}.

(** ** The fields of the class

    [client] and [dispatcher] are read-only references to the
    collaborators; they are the [dispatcher] parameter of the methods
    below rather than fields of this record. *)
Module Context.
Record t := {
  message : Message.t;
  params : Params;
  flags : Flags;
  author : Neo.User;
  member : option Neo.Member;
  guild : option Neo.Guild;
  channel : Neo.TextBasedChannel;
  shouldEdit : bool;
  lastResponse : option Message.t;
  messages : gmap string Message.t;
  parseIndex : Z
}.
End Context.

(** [ctx.lastResponse = r] *)
Definition assign_lastResponse (ctx : Context.t) (r : option Message.t) : Context.t :=
  {| Context.message := Context.message ctx;
     Context.params := Context.params ctx;
     Context.flags := Context.flags ctx;
     Context.author := Context.author ctx;
     Context.member := Context.member ctx;
     Context.guild := Context.guild ctx;
     Context.channel := Context.channel ctx;
     Context.shouldEdit := Context.shouldEdit ctx;
     Context.lastResponse := r;
     Context.messages := Context.messages ctx;
     Context.parseIndex := Context.parseIndex ctx |}.

(** [ctx.shouldEdit = state] *)
Definition assign_shouldEdit (ctx : Context.t) (state : bool) : Context.t :=
  {| Context.message := Context.message ctx;
     Context.params := Context.params ctx;
     Context.flags := Context.flags ctx;
     Context.author := Context.author ctx;
     Context.member := Context.member ctx;
     Context.guild := Context.guild ctx;
     Context.channel := Context.channel ctx;
     Context.shouldEdit := state;
     Context.lastResponse := Context.lastResponse ctx;
     Context.messages := Context.messages ctx;
     Context.parseIndex := Context.parseIndex ctx |}.

(** [string | Embed] *)
Inductive Content : Type :=
| CString (s : string)
| CEmbed (e : Neo.Embed).

(** ** Collaborators

    Each collaborator operation is an oracle over the collaborator
    state [W]: it settles with a value or fails with a reason, and
    leaves a new collaborator state.  Collaborators may read the
    context they are handed; they do not write its fields.  The
    dispatcher, the client and the language classes are imported by
    [Context.ts] as types only. *)
Section Collaborators.
Variable W : Type.

(** Modelled from the spec: [Language] is not among the sources; it
    offers "[.translate(path, vars) -> translated string (async)]". *)
Record Language := {
  lang_translate : string -> Dictionary -> W -> Outcome JsValue * W
}.

(** Modelled from the spec: [LanguageHandler] is not among the
    sources; it offers "[.get(code) -> Language | undefined]", a keyed
    lookup of the languages it holds. *)
Record LanguageHandler := {
  languages_store : gmap string Language
}.

Definition languages_get (h : LanguageHandler) (code : string) : option Language :=
  languages_store h !! code.

(** Modelled from the spec: [BladeClient] is not among the sources;
    it exposes "a generic handler-registry" looked up by name, of which
    the context reads the entry "languages" as a language handler. *)
Record BladeClient := {
  handlers : gmap string LanguageHandler
}.

(** A type resolver receives the raw value and the context. *)
Definition Resolver : Type := string -> Context.t -> W -> Outcome JsValue * W.

(** Modelled from the spec: [TypeResolver] is not among the sources;
    it is the registry behind
    "[.resolver.type(name) -> resolver function | undefined]". *)
Record TypeResolver := {
  types : gmap string Resolver
}.

Definition resolver_type (r : TypeResolver) (name : string) : option Resolver :=
  types r !! name.

(** Modelled from the spec: the dispatcher's options are not among
    the sources; they hold
    "[.options.getLanguage(context) -> language code (async)]", which
    the source treats as optional (it asserts it with [!]) and invokes
    as [getLanguage.call(languages, ctx)]. *)
Record DispatcherOptions := {
  getLanguage : option (LanguageHandler -> Context.t -> W -> Outcome string * W)
}.

(** Modelled from the spec: [CommandDispatcher] is not among the
    sources; the context reads its [client], [resolver] and [options]. *)
Record CommandDispatcher := {
  client : BladeClient;
  resolver : TypeResolver;
  options : DispatcherOptions
}.

(** The chat client's two operations: [channel.send] yields the
    messages it produced, [message.edit] the edited message. *)
Record ChatClient := {
  send : Neo.TextBasedChannel -> Neo.MessageArg -> W -> Outcome (list Message.t) * W;
  message_edit : Message.t -> Neo.MessageArg -> W -> Outcome Message.t * W
}.

End Collaborators.

Arguments lang_translate {W} _ _ _ _.
Arguments languages_store {W} _.
Arguments languages_get {W} _ _.
Arguments handlers {W} _.
Arguments types {W} _.
Arguments resolver_type {W} _ _.
Arguments getLanguage {W} _.
Arguments client {W} _.
Arguments resolver {W} _.
Arguments options {W} _.
Arguments send {W} _ _ _ _.
Arguments message_edit {W} _ _ _ _.

(** ** Asynchronous methods *)

(** What an [async] method's promise can be rejected with.
    [TypeError] is the runtime's failure on a property access through
    [undefined]; [Error message] is an [Error] object created by a
    [throw new Error(message)] of the class itself; [Propagated reason]
    is the rejection of a collaborator's promise, passed on unchanged. *)
Inductive Exn : Type :=
| TypeError
| Error (message : string)
| Propagated (reason : JsValue).

Inductive Settled (A : Type) : Type :=
| Fulfilled (a : A)
| Rejected (e : Exn).
Arguments Fulfilled {A} a.
Arguments Rejected {A} e.

(** The state an invocation runs in: the calls made on the chat client
    so far, the collaborators' state, and the fields of [this]. *)
Record State (W : Type) := {
  calls : list Call;
  world : W;
  this : Context.t
}.
Arguments calls {W} _.
Arguments world {W} _.
Arguments this {W} _.

(** [Promise W A]: an asynchronous computation, run to its settlement.
    The methods await one call at a time, so a run is a function of the
    state it starts in. *)
Definition Promise (W A : Type) : Type := State W -> Settled A * State W.

Definition resolve_with {W A} (a : A) : Promise W A :=
  fun s => (Fulfilled a, s).

Definition throw {W A} (e : Exn) : Promise W A :=
  fun s => (Rejected e, s).

(** [await p] followed by the rest of the method. *)
Definition await {W A B} (p : Promise W A) (k : A -> Promise W B) : Promise W B :=
  fun s =>
    match p s with
    | (Fulfilled a, s') => k a s'
    | (Rejected e, s') => (Rejected e, s')
    end.

Notation "'do' x '<-' p ; k" := (await p (fun x => k))
  (at level 10, x name, p at level 100, k at level 200).

(** Reading and assigning the fields of [this]. *)
Definition read_this {W} : Promise W Context.t :=
  fun s => (Fulfilled (this s), s).

Definition write_this {W} (ctx : Context.t) : Promise W unit :=
  fun s => (Fulfilled tt, {| calls := calls s; world := world s; this := ctx |}).

(** Awaiting a collaborator that is not the chat client. *)
Definition call_out {W A} (f : W -> Outcome A * W) : Promise W A :=
  fun s =>
    let '(r, w') := f (world s) in
    let s' := {| calls := calls s; world := w'; this := this s |} in
    match r with
    | Resolved a => (Fulfilled a, s')
    | Failed reason => (Rejected (Propagated reason), s')
    end.

(** Awaiting the chat client: the call is recorded. *)
Definition call_chat {W A} (c : Call) (f : W -> Outcome A * W) : Promise W A :=
  fun s =>
    let '(r, w') := f (world s) in
    let s' := {| calls := calls s ++ [c]; world := w'; this := this s |} in
    match r with
    | Resolved a => (Fulfilled a, s')
    | Failed reason => (Rejected (Propagated reason), s')
    end.

(** ** The methods of [Context] *)

(** [!size]: true for [undefined] (an optional chain cut short) and for
    zero. *)
Definition js_not_size (size : option nat) : bool :=
  match size with
  | None => true
  | Some n => Nat.eqb n 0
  end.

(** The double quote inside the [resolve] error message. *)
Definition dquote : string := String (Ascii.ascii_of_nat 34) EmptyString.

Section Methods.
Variable W : Type.
Variable neo : ChatClient W.
Variable dispatcher : CommandDispatcher W.

(** [constructor(dispatcher, message)] *)
Definition constructor (message : Message.t) : Context.t :=
  {| Context.message := message;
     Context.params := new_Params;
     Context.flags := new_Flags;
     Context.author := Message.author message;
     Context.member := Message.member message;
     Context.guild := Message.guild message;
     Context.channel := Message.channel message;
     Context.shouldEdit := false;
     Context.lastResponse := None;
     Context.messages := ∅;
     Context.parseIndex := 0 |}.

(** [language()] *)
Definition language : Promise W (option (Language W)) :=
  do ctx <- read_this;
  match handlers (client dispatcher) !! "languages" with
  | None => resolve_with None
  | Some languages =>
      match getLanguage (options dispatcher) with
      | None => throw TypeError
      | Some getLanguage =>
          do code <- call_out (getLanguage languages ctx);
          resolve_with (languages_get languages code)
      end
  end.

(** [setLastResponse(message)] *)
Definition setLastResponse (message : Message.t + list Message.t)
  : Promise W (option Message.t) :=
  do ctx <- read_this;
  let lastResponse :=
    match message with
    | inr array => js_index (js_slice array (-1)) 0
    | inl single => Some single
    end in
  do _ <- write_this (assign_lastResponse ctx lastResponse);
  resolve_with lastResponse.

(** [setEditable(state)] *)
Definition setEditable (state : bool) : Promise W Context.t :=
  do ctx <- read_this;
  do _ <- write_this (assign_shouldEdit ctx state);
  resolve_with (assign_shouldEdit ctx state).

(** [edit(content)] *)
Definition edit (content : Content) : Promise W Message.t :=
  do ctx <- read_this;
  match content with
  | CString text =>
      match Context.lastResponse ctx with
      | None => throw TypeError
      | Some last =>
          let arg := Neo.Text text in
          call_chat (MessageEdit last arg) (message_edit neo last arg)
      end
  | CEmbed e =>
      match Context.lastResponse ctx with
      | None => throw TypeError
      | Some last =>
          let arg := Neo.Build (fun b => Neo.setEmbed b e) in
          call_chat (MessageEdit last arg) (message_edit neo last arg)
      end
  end.

(** [reply(content)] *)
Definition reply (content : Content) : Promise W (option Message.t) :=
  do ctx <- read_this;
  if Context.shouldEdit ctx
     && js_not_size ((fun m => size (Message.attachments m)) <$> Context.lastResponse ctx)
  then
    do edited <- edit content;
    resolve_with (Some edited)
  else
    do messages <-
      match content with
      | CString text =>
          let arg := Neo.Text text in
          call_chat (ChannelSend (Context.channel ctx) arg)
                    (send neo (Context.channel ctx) arg)
      | CEmbed e =>
          let arg := Neo.Build (fun b => Neo.setEmbed b e) in
          call_chat (ChannelSend (Context.channel ctx) arg)
                    (send neo (Context.channel ctx) arg)
      end;
    do lastSent <- setLastResponse (inr messages);
    match lastSent with
    | None => throw TypeError
    | Some lastSent =>
        do _ <- setEditable (js_not_size (Some (size (Message.attachments lastSent))));
        resolve_with (js_index messages (Z.of_nat (length messages) - 1))
    end.

(** [resolve(value, type)] *)
Definition resolve (value : string) (type : string) : Promise W JsValue :=
  do ctx <- read_this;
  match resolver_type (resolver dispatcher) type with
  | None => throw (Error ("Type " +:+ dquote +:+ type +:+ dquote +:+ " does not exist."))
  | Some resolver =>
      do result <- call_out (resolver value ctx);
      resolve_with (nullish result JNull)
  end.

(** [translate(path, context)]; the default [{}] of [context] is the
    caller's [∅]. *)
Definition translate (path : string) (context : Dictionary) : Promise W JsValue :=
  do language <- language;
  match language with
  | Some language => call_out (lang_translate language path context)
  | None => throw (Error "No Language Handler Available")
  end.

(** The first argument of [t]: the literal segments of a template, or
    a dictionary of variables. *)
Inductive TArg : Type :=
| TStrings (strings : list string)
| TVars (context : Dictionary).

(** [TemplateTag<R>]: a function of the literal segments and the
    interpolated values. *)
Definition TemplateTag (R : Type) : Type := list string -> list JsValue -> R.

(** [t(a1, ...a2)] *)
Definition t (a1 : TArg) (a2 : list JsValue)
  : Promise W JsValue + TemplateTag (Promise W JsValue) :=
  let translate_ := fun (context : Dictionary) =>
    fun (strings : list string) (values : list JsValue) =>
      let joined :=
        String.concat ""
          (imap (fun i s =>
                   s +:+ ToString (nullish (default JUndefined (values !! i)) (JString "")))
                strings) in
      translate joined context in
  match a1 with
  | TStrings strings => inl (translate_ ∅ strings [JArray a2])
  | TVars context => inr (translate_ context)
  end.

End Methods.

Arguments language {W} dispatcher _.
Arguments setLastResponse {W} message _.
Arguments setEditable {W} state _.
Arguments edit {W} neo content _.
Arguments reply {W} neo content _.
Arguments resolve {W} dispatcher value type _.
Arguments translate {W} dispatcher path context _.
Arguments t {W} dispatcher a1 a2.

(** ** Vocabulary of the specification *)

(** What the context hands to the chat client for a content: a text as
    it is, an embed wrapped in a builder callback that sets it. *)
Definition payload (content : Content) : Neo.MessageArg :=
  match content with
  | CString text => Neo.Text text
  | CEmbed e => Neo.Build (fun b => Neo.setEmbed b e)
  end.

(** The context after a sent message [m] was recorded: [m] is the last
    response and edit mode is on exactly when [m] carries no
    attachments; every other field is as before. *)
Definition recorded (ctx : Context.t) (m : Message.t) : Context.t :=
  {| Context.message := Context.message ctx;
     Context.params := Context.params ctx;
     Context.flags := Context.flags ctx;
     Context.author := Context.author ctx;
     Context.member := Context.member ctx;
     Context.guild := Context.guild ctx;
     Context.channel := Context.channel ctx;
     Context.shouldEdit := bool_decide (Message.attachments m = ∅);
     Context.lastResponse := Some m;
     Context.messages := Context.messages ctx;
     Context.parseIndex := Context.parseIndex ctx |}.

(** A state in which only the chat client moved: [c] was called and
    the collaborators are left in [w]. *)
Definition after_call {W} (s : State W) (c : Call) (w : W) : State W :=
  {| calls := calls s ++ [c]; world := w; this := this s |}.

(** A state freshly set up for an incoming message. *)
Definition fresh {W} (w : W) (message : Message.t) : State W :=
  {| calls := []; world := w; this := constructor message |}.

(** A caller issuing one [reply] after the other, whatever each one
    settles with. *)
Fixpoint replies {W} (neo : ChatClient W) (contents : list Content) (s : State W)
  : list (Settled (option Message.t)) * State W :=
  match contents with
  | [] => ([], s)
  | content :: rest =>
      let '(r, s1) := reply neo content s in
      let '(rs, s2) := replies neo rest s1 in
      (r :: rs, s2)
  end.

(** Edit mode is in force: the flag is set and no recorded response
    carries attachments. *)
Definition edit_mode (ctx : Context.t) : Prop :=
  Context.shouldEdit ctx = true
  /\ forall m, Context.lastResponse ctx = Some m -> Message.attachments m = ∅.

(** A method's message, seen by a caller that may also get [undefined]. *)
Definition as_returned (r : Settled Message.t) : Settled (option Message.t) :=
  match r with
  | Fulfilled m => Fulfilled (Some m)
  | Rejected e => Rejected e
  end.

(** A caller issuing one [edit] after the other. *)
Fixpoint edits {W} (neo : ChatClient W) (contents : list Content) (s : State W)
  : list (Settled Message.t) * State W :=
  match contents with
  | [] => ([], s)
  | content :: rest =>
      let '(r, s1) := edit neo content s in
      let '(rs, s2) := edits neo rest s1 in
      (r :: rs, s2)
  end.

(** The states an invocation can be in: freshly constructed, then
    after any [reply] or [edit], whatever they settled with. *)
Inductive reachable {W} (neo : ChatClient W) : State W -> Prop :=
| reachable_fresh (w : W) (message : Message.t) :
    reachable neo (fresh w message)
| reachable_reply (content : Content) (s : State W) :
    reachable neo s -> reachable neo (reply neo content s).2
| reachable_edit (content : Content) (s : State W) :
    reachable neo s -> reachable neo (edit neo content s).2.

(** The flag follows the message a [reply] hands back: whenever a
    [reply] returns a message, sent or edited, [shouldEdit] is afterwards
    "that message has no attachments". *)
Definition flag_follows_returned_message {W} (neo : ChatClient W) : Prop :=
  forall content (s s' : State W) (m : Message.t),
    reply neo content s = (Fulfilled (Some m), s') ->
    Context.shouldEdit (this s') = bool_decide (Message.attachments m = ∅).

(** A state in which only the collaborators moved. *)
Definition with_world {W} (s : State W) (w : W) : State W :=
  {| calls := calls s; world := w; this := this s |}.

(** How a method settles when it hands on a collaborator's outcome. *)
Definition handed_on {A} (o : Outcome A) : Settled A :=
  match o with
  | Resolved a => Fulfilled a
  | Failed reason => Rejected (Propagated reason)
  end.

(** What one interpolated value contributes to a template's path: its
    string form, and nothing when it is undefined or missing. *)
Definition interpolated (v : option JsValue) : string :=
  match v with
  | None | Some JUndefined => ""
  | Some v => ToString v
  end.

(** The path of a template: its literal segments with the
    interpolated values in between. *)
Fixpoint template_path (strings : list string) (values : list JsValue) : string :=
  match strings with
  | [] => ""
  | segment :: strings' =>
      segment +:+ interpolated (head values) +:+ template_path strings' (tail values)
  end.

(** ** A concrete chat client and dispatcher

    Used to run the methods on explicit inputs.  The collaborator
    state counts the calls served. *)
Module Demo.

Definition U1 : Neo.User := {| Neo.user_id := "U1" |}.
Definition bot : Neo.User := {| Neo.user_id := "bot" |}.
Definition chan : Neo.TextBasedChannel := {| Neo.channel_id := "C1" |}.

Definition message_of (id : string) (files : gmap string Neo.Attachment) : Message.t :=
  {| Message.id := id;
     Message.author := bot;
     Message.member := None;
     Message.guild := None;
     Message.channel := chan;
     Message.attachments := files |}.

(** The incoming message the context is built for. *)
Definition incoming : Message.t :=
  {| Message.id := "M0";
     Message.author := U1;
     Message.member := None;
     Message.guild := None;
     Message.channel := chan;
     Message.attachments := ∅ |}.

Definition M1 : Message.t := message_of "M1" ∅.
Definition M2 : Message.t := message_of "M2" {[ "A1" := {| Neo.url := "cat.png" |} ]}.
Definition M3 : Message.t := message_of "M3" ∅.

(** [send]: the text "file" produces a message with an attachment,
    "burst" two messages, "void" none at all, "down" a failure; any
    other text and any embed produce [M1]. *)
Definition demo_send (ch : Neo.TextBasedChannel) (arg : Neo.MessageArg) (n : nat)
  : Outcome (list Message.t) * nat :=
  match arg with
  | Neo.Text text =>
      if String.eqb text "file" then (Resolved [M2], S n)
      else if String.eqb text "burst" then (Resolved [M1; M3], S n)
      else if String.eqb text "void" then (Resolved [], S n)
      else if String.eqb text "down" then (Failed (JString "unreachable"), S n)
      else (Resolved [M1], S n)
  | Neo.Build _ => (Resolved [M1], S n)
  end.

(** [edit]: hands back the edited message; on "attach" the message
    comes back carrying an attachment, on "down" the call fails. *)
Definition demo_edit (target : Message.t) (arg : Neo.MessageArg) (n : nat)
  : Outcome Message.t * nat :=
  match arg with
  | Neo.Text text =>
      if String.eqb text "down" then (Failed (JString "unreachable"), S n)
      else if String.eqb text "attach" then
        (Resolved (message_of (Message.id target) {[ "A1" := {| Neo.url := "cat.png" |} ]}),
         S n)
      else (Resolved target, S n)
  | Neo.Build _ => (Resolved target, S n)
  end.

Definition neo : ChatClient nat :=
  {| send := demo_send; message_edit := demo_edit |}.

(** A language that answers with the path it was asked, and the
    variable [name] when given. *)
Definition english : Language nat :=
  {| lang_translate := fun path vars n =>
       (Resolved (JString ("en:" +:+ path +:+
                           match vars !! "name" with
                           | Some v => ":" +:+ ToString v
                           | None => ""
                           end)), S n) |}.

Definition languages : LanguageHandler nat :=
  {| languages_store := {[ "en" := english ]} |}.

(** Resolvers: "int" accepts what it is given, "nothing" yields no
    value, "broken" fails. *)
Definition demo_types : gmap string (Resolver nat) :=
  {[ "int" := (fun value _ n => (Resolved (JObject value), S n));
     "nothing" := (fun _ _ n => (Resolved JUndefined, S n));
     "broken" := (fun _ _ n => (Failed (JString "boom"), S n)) ]}.

(** A dispatcher with the language handler installed and every
    invocation in English. *)
Definition dispatcher : CommandDispatcher nat :=
  {| client := {| handlers := {[ "languages" := languages ]} |};
     resolver := {| types := demo_types |};
     options := {| getLanguage := Some (fun _ _ n => (Resolved "en", S n)) |} |}.

(** The same, with every invocation in a language that is not loaded. *)
Definition dispatcher_fr : CommandDispatcher nat :=
  {| client := {| handlers := {[ "languages" := languages ]} |};
     resolver := {| types := demo_types |};
     options := {| getLanguage := Some (fun _ _ n => (Resolved "fr", S n)) |} |}.

(** A dispatcher whose client has no language handler. *)
Definition dispatcher_bare : CommandDispatcher nat :=
  {| client := {| handlers := ∅ |};
     resolver := {| types := demo_types |};
     options := {| getLanguage := None |} |}.

(** The state right after construction. *)
Definition start : State nat := fresh 0 incoming.

(** The state after a first [reply("hi")], which sends [M1]. *)
Definition after_hi : State nat := (reply neo (CString "hi") start).2.

(** The state after a first [reply("file")], which sends [M2] with its
    attachment. *)
Definition after_file : State nat := (reply neo (CString "file") start).2.

(** A state whose flag was set from outside while the recorded
    response carries an attachment. *)
Definition stale : State nat :=
  {| calls := [];
     world := 0;
     this := assign_shouldEdit (assign_lastResponse (constructor incoming) (Some M2)) true |}.

Definition card : Neo.Embed := {| Neo.title := "Help"; Neo.description := "commands" |}.

End Demo.

(** ** Runs of a caller *)

(** What a command does with its context: it replies, or it edits
    directly. *)
Inductive Action : Type :=
| DoReply (content : Content)
| DoEdit (content : Content).

(** The state one action leaves, whatever it settled with. *)
Definition step {W} (neo : ChatClient W) (a : Action) (s : State W) : State W :=
  match a with
  | DoReply content => (reply neo content s).2
  | DoEdit content => (edit neo content s).2
  end.

(** The state a run of actions leaves. *)
Fixpoint run {W} (neo : ChatClient W) (actions : list Action) (s : State W) : State W :=
  match actions with
  | [] => s
  | a :: rest => run neo rest (step neo a s)
  end.

(** Two contexts are of the same invocation: they agree on every field
    but the last response and the edit flag. *)
Definition same_invocation (a b : Context.t) : Prop :=
  Context.message a = Context.message b
  /\ Context.params a = Context.params b
  /\ Context.flags a = Context.flags b
  /\ Context.author a = Context.author b
  /\ Context.member a = Context.member b
  /\ Context.guild a = Context.guild b
  /\ Context.channel a = Context.channel b
  /\ Context.messages a = Context.messages b
  /\ Context.parseIndex a = Context.parseIndex b.

(** A call that, if it is a send, went to the channel [ch]. *)
Definition sent_to (ch : Neo.TextBasedChannel) (c : Call) : Prop :=
  match c with
  | ChannelSend ch' _ => ch' = ch
  | MessageEdit _ _ => True
  end.

(** What the inner tag function of [t] appends for one value: nothing
    for a missing, [undefined] or [null] value, its string form
    otherwise. *)
Definition contribution (v : option JsValue) : string :=
  match v with
  | None | Some JUndefined | Some JNull => ""
  | Some v => ToString v
  end.

(** The literal segments with the contributions of the values in
    between. *)
Fixpoint joined_path (strings : list string) (values : list JsValue) : string :=
  match strings with
  | [] => ""
  | segment :: strings' =>
      segment +:+ contribution (head values) +:+ joined_path strings' (tail values)
  end.

(** What an element of an array prints as inside the array's string
    form. *)
Definition element_string (v : JsValue) : string :=
  match v with
  | JUndefined | JNull => ""
  | _ => ToString v
  end.

(** ** Further dispatchers *)
Module Cases.

(** The language handler is installed, but the options carry no
    [getLanguage]. *)
Definition dispatcher_no_callback : CommandDispatcher nat :=
  {| client := {| handlers := {[ "languages" := Demo.languages ]} |};
     resolver := {| types := Demo.demo_types |};
     options := {| getLanguage := None |} |}.

(** The language handler is installed, and [getLanguage] fails. *)
Definition dispatcher_failing_callback : CommandDispatcher nat :=
  {| client := {| handlers := {[ "languages" := Demo.languages ]} |};
     resolver := {| types := Demo.demo_types |};
     options := {| getLanguage := Some (fun _ _ n => (Failed (JString "offline"), S n)) |} |}.

(** A language whose [translate] fails, and a dispatcher with every
    invocation in that language. *)
Definition mute : Language nat :=
  {| lang_translate := fun _ _ n => (Failed (JString "no table"), S n) |}.

Definition dispatcher_mute : CommandDispatcher nat :=
  {| client := {| handlers := {[ "languages" := {| languages_store := {[ "xx" := mute ]} |} ]} |};
     resolver := {| types := Demo.demo_types |};
     options := {| getLanguage := Some (fun _ _ n => (Resolved "xx", S n)) |} |}.

End Cases.

(** * Properties *)

(** The scenario of the specification: [reply("hi")] on a fresh
    context sends "hi" to the channel and returns [M1]. *)
Example demo_first_reply :
  reply Demo.neo (CString "hi") Demo.start
  = (Fulfilled (Some Demo.M1),
     {| calls := [ChannelSend Demo.chan (Neo.Text "hi")];
        world := 1;
        this := recorded (constructor Demo.incoming) Demo.M1 |}).
Proof. vm_compute. reflexivity. Qed.

(** ** Arrays and truthiness *)

Lemma js_slice_last {A} (xs : list A) :
  js_index (js_slice xs (-1)) 0 = last xs.
Proof.
  unfold js_index, js_slice. simpl.
  destruct xs as [|x xs]; [reflexivity|].
  replace (Z.to_nat (Z.max (Z.of_nat (length (x :: xs)) + -1) 0))
    with (length xs) by (simpl length; lia).
  revert x. induction xs as [|y ys IH]; intros x; [reflexivity|].
  simpl length. simpl drop. rewrite IH. reflexivity.
Qed.

Lemma js_index_last {A} (xs : list A) :
  js_index xs (Z.of_nat (length xs) - 1) = last xs.
Proof.
  unfold js_index. destruct xs as [|x xs]; [reflexivity|].
  destruct (Z.ltb_spec (Z.of_nat (length (x :: xs)) - 1) 0) as [Hlt|Hge];
    [simpl length in Hlt; lia|].
  replace (Z.to_nat (Z.of_nat (length (x :: xs)) - 1)) with (length xs)
    by (simpl length; lia).
  rewrite last_lookup. reflexivity.
Qed.

Lemma js_not_size_empty {A} (m : gmap string A) :
  js_not_size (Some (size m)) = bool_decide (m = ∅).
Proof.
  simpl. destruct (decide (m = ∅)) as [->|Hne].
  - rewrite map_size_empty. rewrite bool_decide_eq_true_2; reflexivity.
  - rewrite bool_decide_eq_false_2 by assumption.
    apply Nat.eqb_neq. intros H0. apply Hne. by apply map_size_empty_iff.
Qed.

(** The guard of [reply] is [edit_mode]. *)
Lemma guard_edit_mode (ctx : Context.t) :
  Context.shouldEdit ctx
  && js_not_size ((fun m => size (Message.attachments m)) <$> Context.lastResponse ctx)
  = true <-> edit_mode ctx.
Proof.
  unfold edit_mode. rewrite andb_true_iff.
  destruct (Context.lastResponse ctx) as [m|]; simpl fmap.
  - rewrite js_not_size_empty, bool_decide_eq_true. split.
    + intros [Hf He]. split; [exact Hf|]. intros m' [= <-]. exact He.
    + intros [Hf He]. split; [exact Hf|]. apply He. reflexivity.
  - simpl. split; intros [Hf _]; (split; [exact Hf|]); [intros m' [=]|reflexivity].
Qed.

Lemma guard_not_edit_mode (ctx : Context.t) :
  Context.shouldEdit ctx
  && js_not_size ((fun m => size (Message.attachments m)) <$> Context.lastResponse ctx)
  = false <-> ~ edit_mode ctx.
Proof.
  rewrite <- guard_edit_mode. destruct (_ && _); split; congruence.
Qed.

(** ** The reply/edit life cycle *)

Section ReplyEdit.
Variable W : Type.
Variable neo : ChatClient W.

(** [edit] in one step: no recorded response is a [TypeError] before
    anything is called; otherwise the recorded message is edited. *)
Lemma edit_run (content : Content) (s : State W) :
  edit neo content s =
    match Context.lastResponse (this s) with
    | None => (Rejected TypeError, s)
    | Some last =>
        call_chat (MessageEdit last (payload content))
                  (message_edit neo last (payload content)) s
    end.
Proof.
  unfold edit, await, read_this, throw.
  destruct content; simpl; destruct (Context.lastResponse (this s)); reflexivity.
Qed.

(** The branch of [reply] taken in edit mode. *)
Lemma reply_in_edit_mode (content : Content) (s : State W) :
  edit_mode (this s) ->
  reply neo content s =
    (as_returned (edit neo content s).1, (edit neo content s).2).
Proof.
  intros Hmode. apply guard_edit_mode in Hmode.
  unfold reply, await at 1, read_this. rewrite Hmode.
  unfold await at 1. destruct (edit neo content s) as [[m|e] s']; reflexivity.
Qed.

(** The branch of [reply] taken otherwise, up to the settlement of
    the channel's [send]. *)
Lemma reply_out_of_edit_mode (content : Content) (s : State W) :
  ~ edit_mode (this s) ->
  reply neo content s =
    let ch := Context.channel (this s) in
    let c := ChannelSend ch (payload content) in
    match send neo ch (payload content) (world s) with
    | (Failed reason, w) => (Rejected (Propagated reason), after_call s c w)
    | (Resolved msgs, w) =>
        match last msgs with
        | None =>
            (Rejected TypeError,
             {| calls := calls s ++ [c]; world := w;
                this := assign_lastResponse (this s) None |})
        | Some m =>
            (Fulfilled (Some m),
             {| calls := calls s ++ [c]; world := w; this := recorded (this s) m |})
        end
    end.
Proof.
  intros Hmode. apply guard_not_edit_mode in Hmode.
  unfold reply, await at 1, read_this. rewrite Hmode.
  destruct content as [text|e]; cbn [payload]; cbv zeta;
    unfold await at 1, call_chat;
    (destruct (send neo (Context.channel (this s)) _ (world s))
       as [[msgs|reason] w]; [|reflexivity]);
    unfold await at 1, setLastResponse, await, read_this, write_this, resolve_with;
    cbn [this calls world fst snd]; rewrite js_slice_last;
    (destruct (last msgs) as [m|] eqn:Hlast; [|reflexivity]);
    unfold setEditable, await, read_this, write_this, resolve_with, throw;
    cbn [this calls world];
    rewrite js_index_last, Hlast, js_not_size_empty; reflexivity.
Qed.

(** C1: [reply] in edit mode (flag set, no recorded response with
    attachments) returns what [edit] returns and leaves the state
    [edit] leaves; otherwise it sends the content on the context's
    channel, a text as it is and an embed wrapped in a builder
    callback, records the last message sent as [lastResponse], sets
    [shouldEdit] to "the last sent message has no attachments", and
    returns that last message. *)
Theorem reply_edits_or_sends (content : Content) (s : State W) :
  (edit_mode (this s) ->
     reply neo content s =
       (as_returned (edit neo content s).1, (edit neo content s).2))
  /\ (~ edit_mode (this s) ->
      forall msgs w m,
        send neo (Context.channel (this s)) (payload content) (world s)
          = (Resolved msgs, w) ->
        last msgs = Some m ->
        reply neo content s =
          (Fulfilled (Some m),
           {| calls := calls s
                       ++ [ChannelSend (Context.channel (this s)) (payload content)];
              world := w;
              this := recorded (this s) m |})).
Proof.
  split.
  - apply reply_in_edit_mode.
  - intros Hmode msgs w m Hsend Hlast.
    rewrite reply_out_of_edit_mode by assumption.
    cbv zeta. rewrite Hsend, Hlast. reflexivity.
Qed.

(** What [edit] leaves behind when a response is recorded. *)
Lemma edit_with_last (content : Content) (s : State W) (last : Message.t) :
  Context.lastResponse (this s) = Some last ->
  edit neo content s =
    match message_edit neo last (payload content) (world s) with
    | (Resolved edited, w) =>
        (Fulfilled edited, after_call s (MessageEdit last (payload content)) w)
    | (Failed reason, w) =>
        (Rejected (Propagated reason),
         after_call s (MessageEdit last (payload content)) w)
    end.
Proof.
  intros Hlast. rewrite edit_run, Hlast. unfold call_chat, after_call.
  destruct (message_edit neo last (payload content) (world s)) as [[edited|reason] w];
    reflexivity.
Qed.

(** [edit] never writes a field of the context. *)
Lemma edit_frame (content : Content) (s : State W) :
  this (edit neo content s).2 = this s.
Proof.
  rewrite edit_run. destruct (Context.lastResponse (this s)) as [last|]; [|reflexivity].
  unfold call_chat.
  destruct (message_edit neo last (payload content) (world s)) as [[edited|reason] w];
    reflexivity.
Qed.

(** Out of edit mode, [reply] calls the channel's [send], whatever
    comes of it. *)
Lemma reply_calls_send (content : Content) (s : State W) :
  ~ edit_mode (this s) ->
  calls (reply neo content s).2 =
    calls s ++ [ChannelSend (Context.channel (this s)) (payload content)].
Proof.
  intros Hmode. rewrite reply_out_of_edit_mode by assumption. cbv zeta.
  destruct (send neo (Context.channel (this s)) (payload content) (world s))
    as [[msgs|reason] w]; [destruct (last msgs)|]; reflexivity.
Qed.

(** In edit mode with [last] recorded, [reply] calls [last]'s [edit]
    and leaves the context as it was. *)
Lemma reply_calls_edit (content : Content) (s : State W) (last : Message.t) :
  edit_mode (this s) ->
  Context.lastResponse (this s) = Some last ->
  calls (reply neo content s).2 = calls s ++ [MessageEdit last (payload content)]
  /\ this (reply neo content s).2 = this s.
Proof.
  intros Hmode Hlast. rewrite reply_in_edit_mode by assumption. cbn [snd].
  split; [|apply edit_frame].
  rewrite (edit_with_last content s last Hlast).
  destruct (message_edit neo last (payload content) (world s)) as [[edited|reason] w];
    reflexivity.
Qed.

(** C8: without a recorded response, [edit] is rejected with the
    runtime's [TypeError], not with an [Error] of the class, and nothing
    is called; with a recorded response it calls that message's [edit]
    with the payload [reply] would hand to the channel's [send] (text as
    text, embed in a builder callback) and settles as that call does. *)
Theorem edit_requires_last_response (content : Content) (s : State W) :
  (Context.lastResponse (this s) = None ->
     edit neo content s = (Rejected TypeError, s)
     /\ forall message, (edit neo content s).1 <> Rejected (Error message))
  /\ (forall last, Context.lastResponse (this s) = Some last ->
       edit neo content s =
         match message_edit neo last (payload content) (world s) with
         | (Resolved edited, w) =>
             (Fulfilled edited, after_call s (MessageEdit last (payload content)) w)
         | (Failed reason, w) =>
             (Rejected (Propagated reason),
              after_call s (MessageEdit last (payload content)) w)
         end)
  /\ (~ edit_mode (this s) ->
       calls (reply neo content s).2 =
         calls s ++ [ChannelSend (Context.channel (this s)) (payload content)]).
Proof.
  split; [|split].
  - intros Hnone. rewrite edit_run, Hnone. split; [reflexivity|].
    intros message. cbn [fst]. discriminate.
  - intros last. apply edit_with_last.
  - apply reply_calls_send.
Qed.

(** C10: [edit] leaves every field of the context as it was, in
    particular [shouldEdit], [lastResponse] and [messages]; the message
    it returns is not recorded, so a [reply] that delegates to [edit]
    leaves the context unchanged too. *)
Theorem edit_leaves_tracking_unchanged (content : Content) (s : State W) :
  this (edit neo content s).2 = this s
  /\ (forall edited s', edit neo content s = (Fulfilled edited, s') ->
       Context.lastResponse (this s') = Context.lastResponse (this s)
       /\ Context.shouldEdit (this s') = Context.shouldEdit (this s)
       /\ Context.messages (this s') = Context.messages (this s))
  /\ (edit_mode (this s) -> this (reply neo content s).2 = this s).
Proof.
  split; [apply edit_frame|split].
  - intros edited s' Hrun. pose proof (edit_frame content s) as Hframe.
    rewrite Hrun in Hframe. cbn [snd] in Hframe. rewrite Hframe. auto.
  - intros Hmode. rewrite reply_in_edit_mode by assumption. apply edit_frame.
Qed.

(** C3, amended: the decision to edit is made anew on every [reply]
    (a flag left set while the recorded response carries attachments
    leads to a send), but the field [shouldEdit] is reassigned only by a
    [reply] that sends, to "the last sent message has no attachments";
    a [reply] that delegates to [edit] reassigns neither [shouldEdit]
    nor [lastResponse], whatever message [edit] hands back. *)
Theorem reply_reevaluates_on_send_only (content : Content) (s : State W) :
  (~ edit_mode (this s) ->
     forall m s', reply neo content s = (Fulfilled (Some m), s') ->
       Context.lastResponse (this s') = Some m
       /\ Context.shouldEdit (this s') = bool_decide (Message.attachments m = ∅))
  /\ (edit_mode (this s) ->
      Context.shouldEdit (this (reply neo content s).2) = Context.shouldEdit (this s)
      /\ Context.lastResponse (this (reply neo content s).2)
         = Context.lastResponse (this s))
  /\ (forall last,
       Context.shouldEdit (this s) = true ->
       Context.lastResponse (this s) = Some last ->
       Message.attachments last <> ∅ ->
       calls (reply neo content s).2 =
         calls s ++ [ChannelSend (Context.channel (this s)) (payload content)]).
Proof.
  assert (Hsend : ~ edit_mode (this s) ->
     forall m s', reply neo content s = (Fulfilled (Some m), s') ->
       Context.lastResponse (this s') = Some m
       /\ Context.shouldEdit (this s') = bool_decide (Message.attachments m = ∅)).
  { intros Hmode m s' Hrun.
    rewrite reply_out_of_edit_mode in Hrun by assumption. cbv zeta in Hrun.
    destruct (send neo (Context.channel (this s)) (payload content) (world s))
      as [[msgs|reason] w]; [|discriminate].
    destruct (last msgs) as [m'|]; [|discriminate].
    injection Hrun as Hm Hs'. subst m' s'. split; reflexivity. }
  assert (Hedit : edit_mode (this s) -> this (reply neo content s).2 = this s).
  { intros Hmode. rewrite reply_in_edit_mode by assumption. apply edit_frame. }
  split; [exact Hsend|]. split.
  - intros Hmode. rewrite (Hedit Hmode). split; reflexivity.
  - intros last Hflag Hlast Hfiles. apply reply_calls_send.
    intros [_ Hempty]. apply Hfiles, Hempty, Hlast.
Qed.

(** C9: when a [reply] has sent a message that carries attachments,
    [shouldEdit] is false right after it, and the next [reply] calls the
    channel's [send] again instead of editing. *)
Theorem reply_with_attachments_then_sends
    (content : Content) (s s' : State W) (m : Message.t) :
  reply neo content s = (Fulfilled (Some m), s') ->
  calls s' = calls s ++ [ChannelSend (Context.channel (this s)) (payload content)] ->
  Message.attachments m <> ∅ ->
  Context.shouldEdit (this s') = false
  /\ forall next,
       calls (reply neo next s').2 =
         calls s' ++ [ChannelSend (Context.channel (this s')) (payload next)].
Proof.
  intros Hrun Hsent Hfiles.
  assert (Hflag : Context.shouldEdit (this s') = false).
  { destruct (guard_edit_mode (this s)) as [_ Hdec].
    destruct (Context.shouldEdit (this s)
              && js_not_size ((fun m => size (Message.attachments m))
                                <$> Context.lastResponse (this s))) eqn:Hguard.
    - assert (Hmode : edit_mode (this s)) by (apply guard_edit_mode; exact Hguard).
      exfalso. rewrite reply_in_edit_mode in Hrun by assumption.
      injection Hrun as _ Hs'. subst s'. rewrite edit_run in Hsent.
      destruct (Context.lastResponse (this s)) as [last|].
      + unfold call_chat in Hsent.
        destruct (message_edit neo last (payload content) (world s))
          as [[edited|reason] w]; cbn [snd calls] in Hsent;
          apply app_inv_head in Hsent; discriminate.
      + cbn [snd] in Hsent. rewrite <- (app_nil_r (calls s)) in Hsent at 1.
        apply app_inv_head in Hsent. discriminate.
    - assert (Hmode : ~ edit_mode (this s)) by (apply guard_not_edit_mode; exact Hguard).
      rewrite reply_out_of_edit_mode in Hrun by assumption. cbv zeta in Hrun.
      destruct (send neo (Context.channel (this s)) (payload content) (world s))
        as [[msgs|reason] w]; [|discriminate].
      destruct (last msgs) as [m'|]; [|discriminate].
      injection Hrun as Hm Hs'. subst m' s'. cbn [this recorded Context.shouldEdit].
      apply bool_decide_eq_false_2. exact Hfiles. }
  split; [exact Hflag|].
  intros next. apply reply_calls_send. intros [Hset _]. congruence.
Qed.

(** Once in edit mode with [last] recorded, a run of replies is a run
    of edits of [last]. *)
Lemma replies_in_edit_mode (rest : list Content) :
  forall (s : State W) (last : Message.t),
    edit_mode (this s) ->
    Context.lastResponse (this s) = Some last ->
    replies neo rest s = (as_returned <$> (edits neo rest s).1, (edits neo rest s).2)
    /\ calls (replies neo rest s).2 =
         calls s ++ map (fun c => MessageEdit last (payload c)) rest
    /\ this (replies neo rest s).2 = this s.
Proof.
  induction rest as [|content rest IH]; intros s last Hmode Hlast.
  - cbn. rewrite app_nil_r. auto.
  - destruct (reply_calls_edit content s last Hmode Hlast) as [Hcalls Hthis].
    pose proof (reply_in_edit_mode content s Hmode) as Hreply.
    cbn [replies edits].
    destruct (reply neo content s) as [r s1].
    destruct (edit neo content s) as [r' s1'].
    cbn [fst snd] in *. injection Hreply as -> ->.
    assert (Hmode1 : edit_mode (this s1')) by (rewrite Hthis; exact Hmode).
    assert (Hlast1 : Context.lastResponse (this s1') = Some last)
      by (rewrite Hthis; exact Hlast).
    destruct (IH s1' last Hmode1 Hlast1) as (Hrun & Hcalls' & Hthis').
    destruct (replies neo rest s1') as [rs s2].
    destruct (edits neo rest s1') as [rs' s2'].
    cbn [fst snd] in *. injection Hrun as -> ->.
    repeat split.
    + rewrite Hcalls', Hcalls, <- app_assoc. reflexivity.
    + rewrite Hthis'. exact Hthis.
Qed.

(** C2: on a freshly constructed context, when the first [reply]
    returns a sent message without attachments, [shouldEdit] is true
    after it, and every later [reply] is an [edit] of that message: the
    record of calls is the one [send] followed by edits only. *)
Theorem replies_after_first_are_edits
    (w : W) (message : Message.t) (first : Content) (rest : list Content)
    (m : Message.t) (s1 : State W) :
  reply neo first (fresh w message) = (Fulfilled (Some m), s1) ->
  Message.attachments m = ∅ ->
  Context.shouldEdit (this s1) = true
  /\ replies neo rest s1 = (as_returned <$> (edits neo rest s1).1, (edits neo rest s1).2)
  /\ calls (replies neo rest s1).2 =
       ChannelSend (Message.channel message) (payload first)
       :: map (fun c => MessageEdit m (payload c)) rest.
Proof.
  intros Hrun Hnone.
  assert (Hmode : ~ edit_mode (this (fresh w message)))
    by (intros [Hflag _]; discriminate).
  rewrite reply_out_of_edit_mode in Hrun by assumption. cbv zeta in Hrun.
  destruct (send neo (Context.channel (this (fresh w message))) (payload first)
              (world (fresh w message))) as [[msgs|reason] w1]; [|discriminate].
  destruct (last msgs) as [m'|]; [|discriminate].
  injection Hrun as Hm Hs1. subst m' s1.
  assert (Hflag : Context.shouldEdit (recorded (this (fresh w message)) m) = true)
    by (apply bool_decide_eq_true_2; exact Hnone).
  set (s1 := {| calls := _; world := w1; this := _ |}).
  assert (Hmode1 : edit_mode (this s1)).
  { split; [exact Hflag|]. intros m0 [= <-]. exact Hnone. }
  destruct (replies_in_edit_mode rest s1 m Hmode1 eq_refl) as (Hreplies & Hcalls & _).
  split; [exact Hflag|]. split; [exact Hreplies|].
  rewrite Hcalls. reflexivity.
Qed.

(** No [reply] writes the [messages] mapping. *)
Lemma reply_keeps_messages (content : Content) (s : State W) :
  Context.messages (this (reply neo content s).2) = Context.messages (this s).
Proof.
  destruct (Context.shouldEdit (this s)
            && js_not_size ((fun m => size (Message.attachments m))
                              <$> Context.lastResponse (this s))) eqn:Hguard.
  - apply guard_edit_mode in Hguard.
    rewrite reply_in_edit_mode by assumption. cbn [snd].
    rewrite edit_frame. reflexivity.
  - apply guard_not_edit_mode in Hguard.
    rewrite reply_out_of_edit_mode by assumption. cbv zeta.
    destruct (send neo (Context.channel (this s)) (payload content) (world s))
      as [[msgs|reason] w]; [destruct (last msgs)|]; reflexivity.
Qed.

(** On every reachable state [messages] is still empty, and, for a
    chat client that leaves a recorded message as it handed it over, the
    flag is set only while a response without attachments is recorded. *)
Lemma reachable_tracking (s : State W) :
  reachable neo s ->
  (Context.shouldEdit (this s) = true ->
     exists last, Context.lastResponse (this s) = Some last
                  /\ Message.attachments last = ∅)
  /\ Context.messages (this s) = ∅.
Proof.
  induction 1 as [w message|content s Hs [IHflag IHmsgs]|content s Hs [IHflag IHmsgs]].
  - split; [discriminate|reflexivity].
  - split; [|rewrite reply_keeps_messages; exact IHmsgs].
    destruct (Context.shouldEdit (this s)
              && js_not_size ((fun m => size (Message.attachments m))
                                <$> Context.lastResponse (this s))) eqn:Hguard.
    + apply guard_edit_mode in Hguard.
      rewrite reply_in_edit_mode by assumption. cbn [snd]. rewrite edit_frame.
      exact IHflag.
    + pose proof Hguard as Hmode. apply guard_not_edit_mode in Hmode.
      rewrite reply_out_of_edit_mode by assumption. cbv zeta.
      destruct (send neo (Context.channel (this s)) (payload content) (world s))
        as [[msgs|reason] w]; [destruct (last msgs) as [m|]|]; cbn [snd this].
      * cbn [recorded Context.shouldEdit Context.lastResponse].
        intros Hflag. apply bool_decide_eq_true in Hflag. eauto.
      * cbn [assign_lastResponse Context.shouldEdit]. intros Hflag.
        exfalso. destruct (IHflag Hflag) as (last & Hlast & Hnone).
        rewrite Hflag, Hlast in Hguard. cbn in Hguard. rewrite Hnone in Hguard.
        rewrite map_size_empty in Hguard. discriminate.
      * exact IHflag.
  - rewrite edit_frame. split; assumption.
Qed.

End ReplyEdit.

(** ** Type resolution and translation *)

Section Lookup.
Variable W : Type.
Variable dispatcher : CommandDispatcher W.

(** [language()] yields no language exactly when no handler is
    installed or the handler has no language for the resolved code. *)
Lemma language_none_iff (s : State W) :
  (exists s', language dispatcher s = (Fulfilled None, s'))
  <-> (handlers (client dispatcher) !! "languages" = None
       \/ exists languages getLang code w,
            handlers (client dispatcher) !! "languages" = Some languages
            /\ getLanguage (options dispatcher) = Some getLang
            /\ getLang languages (this s) (world s) = (Resolved code, w)
            /\ languages_get languages code = None).
Proof.
  unfold language, await, read_this, resolve_with, throw, call_out.
  destruct (handlers (client dispatcher) !! "languages") as [languages|].
  - destruct (getLanguage (options dispatcher)) as [getLang|].
    + destruct (getLang languages (this s) (world s)) as [[code|reason] w] eqn:Hcode.
      * split.
        -- intros [s' [= Hnone _]]. right. exists languages, getLang, code, w. auto.
        -- intros [[=]|(l & g & c & w' & [= <-] & [= <-] & Hrun & Hget)].
           rewrite Hcode in Hrun. injection Hrun as <- <-. rewrite Hget. eauto.
      * split.
        -- intros [s' [=]].
        -- intros [[=]|(l & g & c & w' & [= <-] & [= <-] & Hrun & _)].
           rewrite Hcode in Hrun. discriminate.
    + split.
      * intros [s' [=]].
      * intros [[=]|(l & g & c & w' & _ & [=] & _)].
  - split; [intros _; left; reflexivity|intros _; eauto].
Qed.

(** [language()] yields [lang] when the handler is installed and the
    resolved code names [lang]. *)
Lemma language_some (s : State W) languages getLang code w lang :
  handlers (client dispatcher) !! "languages" = Some languages ->
  getLanguage (options dispatcher) = Some getLang ->
  getLang languages (this s) (world s) = (Resolved code, w) ->
  languages_get languages code = Some lang ->
  language dispatcher s = (Fulfilled (Some lang), with_world s w).
Proof.
  intros Hh Hg Hrun Hget.
  unfold language, await, read_this, resolve_with, call_out.
  rewrite Hh, Hg, Hrun, Hget. reflexivity.
Qed.

(** [translate] in terms of what [language()] settled with. *)
Lemma translate_run (path : string) (vars : Dictionary) (s : State W) :
  translate dispatcher path vars s =
    match language dispatcher s with
    | (Fulfilled (Some lang), s') =>
        let '(o, w) := lang_translate lang path vars (world s') in
        (handed_on o, with_world s' w)
    | (Fulfilled None, s') => (Rejected (Error "No Language Handler Available"), s')
    | (Rejected e, s') => (Rejected e, s')
    end.
Proof.
  unfold translate, await.
  destruct (language dispatcher s) as [[[lang|]|e] s']; try reflexivity.
  unfold call_out, with_world.
  destruct (lang_translate lang path vars (world s')) as [[v|reason] w]; reflexivity.
Qed.

(** [language()] itself is never rejected with an [Error] of the class. *)
Lemma language_no_error (s : State W) message :
  (language dispatcher s).1 <> Rejected (Error message).
Proof.
  unfold language, await, read_this, resolve_with, throw, call_out.
  destruct (handlers (client dispatcher) !! "languages") as [languages|];
    [|discriminate].
  destruct (getLanguage (options dispatcher)) as [getLang|]; [|discriminate].
  destruct (getLang languages (this s) (world s)) as [[code|reason] w]; discriminate.
Qed.

(** C7: [translate] is rejected with the class's "No Language Handler
    Available" error exactly when no active language resolves, that is
    when no language handler is installed or the handler has no language
    for the resolved code; when a language resolves, [translate] settles
    as that language's [translate(path, vars)] does. *)
Theorem translate_fails_iff_no_language
    (path : string) (vars : Dictionary) (s : State W) :
  ((translate dispatcher path vars s).1
     = Rejected (Error "No Language Handler Available")
   <-> (handlers (client dispatcher) !! "languages" = None
        \/ exists languages getLang code w,
             handlers (client dispatcher) !! "languages" = Some languages
             /\ getLanguage (options dispatcher) = Some getLang
             /\ getLang languages (this s) (world s) = (Resolved code, w)
             /\ languages_get languages code = None))
  /\ (forall languages getLang code w lang,
        handlers (client dispatcher) !! "languages" = Some languages ->
        getLanguage (options dispatcher) = Some getLang ->
        getLang languages (this s) (world s) = (Resolved code, w) ->
        languages_get languages code = Some lang ->
        translate dispatcher path vars s =
          (handed_on (lang_translate lang path vars w).1,
           with_world s (lang_translate lang path vars w).2)).
Proof.
  split.
  - rewrite <- language_none_iff, translate_run. split.
    + intros Hfail. pose proof (language_no_error s) as Hlang.
      destruct (language dispatcher s) as [[[lang|]|e] s'].
      * exfalso.
        destruct (lang_translate lang path vars (world s')) as [[v|reason] w];
          discriminate.
      * eauto.
      * exfalso. cbn [fst] in Hfail. injection Hfail as ->.
        eapply Hlang. reflexivity.
    + intros [s' Hnone]. rewrite Hnone. reflexivity.
  - intros languages getLang code w lang Hh Hg Hrun Hget.
    rewrite translate_run.
    rewrite (language_some s languages getLang code w lang Hh Hg Hrun Hget).
    cbn [world with_world].
    destruct (lang_translate lang path vars w) as [o w']. reflexivity.
Qed.

(** C6: [resolve] is rejected with the class's "does not exist" error
    exactly when the type name is not in the dispatcher's resolver
    registry; for a registered name it calls the resolver with the value
    and this context and returns its result, with [null] in place of no
    value ([undefined] or [null]). *)
Theorem resolve_fails_iff_unregistered (value type : string) (s : State W) :
  ((exists message, (resolve dispatcher value type s).1 = Rejected (Error message))
   <-> resolver_type (resolver dispatcher) type = None)
  /\ (resolver_type (resolver dispatcher) type = None ->
      resolve dispatcher value type s =
        (Rejected (Error ("Type " +:+ dquote +:+ type +:+ dquote +:+ " does not exist.")),
         s))
  /\ (forall r, resolver_type (resolver dispatcher) type = Some r ->
       resolve dispatcher value type s =
         match r value (this s) (world s) with
         | (Resolved JUndefined, w) | (Resolved JNull, w) =>
             (Fulfilled JNull, with_world s w)
         | (Resolved result, w) => (Fulfilled result, with_world s w)
         | (Failed reason, w) => (Rejected (Propagated reason), with_world s w)
         end).
Proof.
  unfold resolve, await, read_this, resolve_with, throw, call_out, with_world.
  destruct (resolver_type (resolver dispatcher) type) as [r|].
  - split; [|split].
    + split; [|discriminate].
      intros [message Hfail].
      destruct (r value (this s) (world s)) as [[result|reason] w]; discriminate.
    + discriminate.
    + intros r' [= <-].
      destruct (r value (this s) (world s)) as [[result|reason] w]; [|reflexivity].
      destruct result; reflexivity.
  - split; [|split].
    + split; [reflexivity|]. intros _. eexists. reflexivity.
    + reflexivity.
    + discriminate.
Qed.

End Lookup.

(** ** The template tag *)

Lemma append_empty_r (s : string) : s +:+ "" = s.
Proof.
  induction s as [|c s IH]; [reflexivity|].
  change (String c (s +:+ "") = String c s). f_equal. exact IH.
Qed.

Lemma append_assoc (a b c : string) : (a +:+ b) +:+ c = a +:+ b +:+ c.
Proof.
  induction a as [|x a IH]; [reflexivity|].
  change (String x ((a +:+ b) +:+ c) = String x (a +:+ b +:+ c)). f_equal. exact IH.
Qed.

Lemma concat_empty_cons (x : string) (l : list string) :
  String.concat "" (x :: l) = x +:+ String.concat "" l.
Proof. destruct l; cbn; [rewrite append_empty_r|]; reflexivity. Qed.

Lemma concat_empty_map_id (l : list string) :
  String.concat "" (imap (fun (_ : nat) s => s +:+ "") l) = String.concat "" l.
Proof.
  induction l as [|x l IH]; [reflexivity|].
  rewrite imap_cons, !concat_empty_cons, append_empty_r. f_equal. exact IH.
Qed.

(** What the join of the inner tag function builds from values that
    hold no [null]. *)
Lemma joined_template_path (strings : list string) :
  forall values : list JsValue,
    JNull ∉ values ->
    String.concat ""
      (imap (fun i s =>
               s +:+ ToString (nullish (default JUndefined (values !! i)) (JString "")))
            strings)
    = template_path strings values.
Proof.
  induction strings as [|segment strings IH]; intros values Hnull; [reflexivity|].
  rewrite imap_cons, concat_empty_cons. cbn [template_path].
  rewrite append_assoc. apply (f_equal (String.append segment)).
  apply (f_equal2 String.append).
  - destruct values as [|v values]; [reflexivity|]. cbn.
    destruct v; try reflexivity. exfalso. apply Hnull. left.
  - rewrite <- (IH (tail values)).
    + f_equal. apply imap_ext. intros i s _. cbn.
      destruct values as [|v values]; reflexivity.
    + destruct values as [|v values]; [exact Hnull|].
      intros Hin. apply Hnull. right. exact Hin.
Qed.

Section TemplateTag.
Variable W : Type.
Variable dispatcher : CommandDispatcher W.

(** Called with a dictionary first, [t] returns a tag function that
    translates the template's path with those variables. *)
Lemma t_with_vars (context : Dictionary) (a2 : list JsValue) :
  exists tag,
    t dispatcher (TVars context) a2 = inr tag
    /\ forall strings values,
         JNull ∉ values ->
         tag strings values = translate dispatcher (template_path strings values) context.
Proof.
  eexists. split; [reflexivity|].
  intros strings values Hnull. cbv beta. rewrite joined_template_path by assumption.
  reflexivity.
Qed.

(** Called as a tag itself, [t] hands the whole array of values to the
    inner tag function as its first and only value: the path is the
    first segment, the array's string form, then the other segments. *)
Lemma t_as_tag (first : string) (others : list string) (a2 : list JsValue) :
  t dispatcher (TStrings (first :: others)) a2 =
    inl (translate dispatcher
           (first +:+ ToString (JArray a2) +:+ String.concat "" others) ∅).
Proof.
  unfold t. apply (f_equal inl).
  apply (f_equal (fun path => translate dispatcher path ∅)).
  rewrite imap_cons, concat_empty_cons, append_assoc.
  apply (f_equal (String.append first)).
  apply (f_equal (String.append (ToString (JArray a2)))).
  rewrite <- (concat_empty_map_id others). apply (f_equal (String.concat "")).
  apply imap_ext. intros i s _. reflexivity.
Qed.

(** With a single interpolated value that is not [null], the tag call
    translates the template's path. *)
Lemma t_as_tag_single (first second : string) (v : JsValue) :
  v <> JNull ->
  t dispatcher (TStrings [first; second]) [v] =
    inl (translate dispatcher (template_path [first; second] [v]) ∅).
Proof.
  intros Hv. rewrite t_as_tag. do 2 f_equal.
  cbn [template_path head tail interpolated String.concat].
  change (second +:+ "" +:+ "") with (second +:+ ("" +:+ "")).
  change ("" +:+ "") with "". rewrite (append_empty_r second).
  destruct v; try reflexivity. congruence.
Qed.

End TemplateTag.

(** * Worked inputs *)

(** A fresh context is not in edit mode. *)
Lemma demo_start_not_edit_mode : ~ edit_mode (this Demo.start).
Proof. intros [Hflag _]. discriminate Hflag. Defined.

(** After [reply("hi")] has sent [M1], the context is in edit mode. *)
Lemma demo_after_hi_edit_mode : edit_mode (this Demo.after_hi).
Proof.
  split; [reflexivity|]. intros m Hlast. vm_compute in Hlast.
  injection Hlast as <-. reflexivity.
Defined.

(** [reply("bye")] after [reply("hi")] is an edit; [reply(card)] on a
    fresh context sends the card through a builder and records [M1]. *)
Lemma reply_edits_or_sends_witness :
  reply Demo.neo (CString "bye") Demo.after_hi =
    (as_returned (edit Demo.neo (CString "bye") Demo.after_hi).1,
     (edit Demo.neo (CString "bye") Demo.after_hi).2)
  /\ reply Demo.neo (CEmbed Demo.card) Demo.start =
       (Fulfilled (Some Demo.M1),
        {| calls := calls Demo.start
                    ++ [ChannelSend (Context.channel (this Demo.start))
                                    (payload (CEmbed Demo.card))];
           world := 1;
           this := recorded (this Demo.start) Demo.M1 |}).
Proof.
  split.
  - apply (proj1 (reply_edits_or_sends nat Demo.neo (CString "bye") Demo.after_hi)).
    exact demo_after_hi_edit_mode.
  - apply (proj2 (reply_edits_or_sends nat Demo.neo (CEmbed Demo.card) Demo.start)
             demo_start_not_edit_mode [Demo.M1] 1 Demo.M1); reflexivity.
Defined.

(** [reply("hi")], then [reply("bye")], [reply("down")], whose edit
    fails, and [reply(card)]: one send, then edits of [M1] only. *)
Lemma replies_after_first_are_edits_witness :
  Context.shouldEdit (this Demo.after_hi) = true
  /\ replies Demo.neo [CString "bye"; CString "down"; CEmbed Demo.card] Demo.after_hi =
       (as_returned
          <$> (edits Demo.neo [CString "bye"; CString "down"; CEmbed Demo.card]
                 Demo.after_hi).1,
        (edits Demo.neo [CString "bye"; CString "down"; CEmbed Demo.card]
           Demo.after_hi).2)
  /\ calls (replies Demo.neo [CString "bye"; CString "down"; CEmbed Demo.card]
              Demo.after_hi).2 =
       ChannelSend (Message.channel Demo.incoming) (payload (CString "hi"))
       :: map (fun c => MessageEdit Demo.M1 (payload c))
              [CString "bye"; CString "down"; CEmbed Demo.card].
Proof.
  apply (replies_after_first_are_edits nat Demo.neo 0 Demo.incoming (CString "hi")
           [CString "bye"; CString "down"; CEmbed Demo.card] Demo.M1 Demo.after_hi).
  - vm_compute. reflexivity.
  - reflexivity.
Defined.

(** [reply("file")] sends [M2] and clears the flag; [reply("attach")]
    in edit mode leaves flag and last response alone; a stale flag over
    [M2] leads to a send. *)
Lemma reply_reevaluates_on_send_only_witness :
  (Context.lastResponse (this Demo.after_file) = Some Demo.M2
   /\ Context.shouldEdit (this Demo.after_file)
      = bool_decide (Message.attachments Demo.M2 = ∅))
  /\ (Context.shouldEdit (this (reply Demo.neo (CString "attach") Demo.after_hi).2)
        = Context.shouldEdit (this Demo.after_hi)
      /\ Context.lastResponse (this (reply Demo.neo (CString "attach") Demo.after_hi).2)
        = Context.lastResponse (this Demo.after_hi))
  /\ calls (reply Demo.neo (CString "again") Demo.stale).2 =
       calls Demo.stale
       ++ [ChannelSend (Context.channel (this Demo.stale)) (payload (CString "again"))].
Proof.
  split; [|split].
  - apply (proj1 (reply_reevaluates_on_send_only nat Demo.neo (CString "file") Demo.start)
             demo_start_not_edit_mode Demo.M2 Demo.after_file).
    vm_compute. reflexivity.
  - apply (proj1 (proj2 (reply_reevaluates_on_send_only nat Demo.neo (CString "attach")
                           Demo.after_hi))).
    exact demo_after_hi_edit_mode.
  - apply (proj2 (proj2 (reply_reevaluates_on_send_only nat Demo.neo
                           (CString "again") Demo.stale))
             Demo.M2); [reflexivity|reflexivity|].
    intros Hempty. apply (f_equal size) in Hempty. vm_compute in Hempty.
    discriminate Hempty.
Defined.

(** C3 as worded fails: in edit mode, [reply("attach")] edits [M1] and
    returns the edited message, which carries an attachment, while
    [shouldEdit] stays true. *)
Lemma flag_not_reevaluated_on_edit : ~ flag_follows_returned_message Demo.neo.
Proof.
  intros Hclaim.
  specialize (Hclaim (CString "attach") Demo.after_hi
                (reply Demo.neo (CString "attach") Demo.after_hi).2
                (Demo.message_of "M1" {[ "A1" := {| Neo.url := "cat.png" |} ]})).
  assert (Hrun : reply Demo.neo (CString "attach") Demo.after_hi
                 = (Fulfilled (Some (Demo.message_of "M1"
                                       {[ "A1" := {| Neo.url := "cat.png" |} ]})),
                    (reply Demo.neo (CString "attach") Demo.after_hi).2))
    by (vm_compute; reflexivity).
  specialize (Hclaim Hrun). vm_compute in Hclaim. discriminate Hclaim.
Qed.

(** [M2] carries its attachment. *)
Lemma demo_M2_has_attachments : Message.attachments Demo.M2 <> ∅.
Proof.
  intros Hempty. apply (f_equal size) in Hempty. vm_compute in Hempty.
  discriminate Hempty.
Defined.

(** [edit("bye")] on a fresh context is a [TypeError]; [edit(card)]
    after [reply("hi")] edits [M1] through the builder [reply(card)]
    would send. *)
Lemma edit_requires_last_response_witness :
  (edit Demo.neo (CString "bye") Demo.start = (Rejected TypeError, Demo.start)
   /\ forall message,
        (edit Demo.neo (CString "bye") Demo.start).1 <> Rejected (Error message))
  /\ edit Demo.neo (CEmbed Demo.card) Demo.after_hi =
       (Fulfilled Demo.M1,
        after_call Demo.after_hi
          (MessageEdit Demo.M1 (Neo.Build (fun b => Neo.setEmbed b Demo.card))) 2)
  /\ calls (reply Demo.neo (CEmbed Demo.card) Demo.start).2 =
       [ChannelSend Demo.chan (Neo.Build (fun b => Neo.setEmbed b Demo.card))].
Proof.
  split; [|split].
  - apply (proj1 (edit_requires_last_response nat Demo.neo (CString "bye") Demo.start)).
    reflexivity.
  - apply (proj1 (proj2 (edit_requires_last_response nat Demo.neo (CEmbed Demo.card)
                           Demo.after_hi)) Demo.M1).
    reflexivity.
  - apply (proj2 (proj2 (edit_requires_last_response nat Demo.neo (CEmbed Demo.card)
                           Demo.start))).
    exact demo_start_not_edit_mode.
Defined.

(** After [reply("file")] has sent [M2], any next [reply] sends. *)
Lemma reply_with_attachments_then_sends_witness :
  Context.shouldEdit (this Demo.after_file) = false
  /\ forall next,
       calls (reply Demo.neo next Demo.after_file).2 =
         calls Demo.after_file
         ++ [ChannelSend (Context.channel (this Demo.after_file)) (payload next)].
Proof.
  apply (reply_with_attachments_then_sends nat Demo.neo (CString "file")
           Demo.start Demo.after_file Demo.M2).
  - vm_compute. reflexivity.
  - reflexivity.
  - exact demo_M2_has_attachments.
Defined.

(** [edit("bye")] and [reply("bye")] after [reply("hi")] leave the
    context as [reply("hi")] left it. *)
Lemma edit_leaves_tracking_unchanged_witness :
  this (edit Demo.neo (CString "bye") Demo.after_hi).2 = this Demo.after_hi
  /\ (Context.lastResponse (this (edit Demo.neo (CString "bye") Demo.after_hi).2)
        = Context.lastResponse (this Demo.after_hi)
      /\ Context.shouldEdit (this (edit Demo.neo (CString "bye") Demo.after_hi).2)
        = Context.shouldEdit (this Demo.after_hi)
      /\ Context.messages (this (edit Demo.neo (CString "bye") Demo.after_hi).2)
        = Context.messages (this Demo.after_hi))
  /\ this (reply Demo.neo (CString "bye") Demo.after_hi).2 = this Demo.after_hi.
Proof.
  pose proof (edit_leaves_tracking_unchanged nat Demo.neo (CString "bye") Demo.after_hi)
    as (Hframe & Hfields & Hreply).
  split; [exact Hframe|split].
  - apply (Hfields Demo.M1). vm_compute. reflexivity.
  - apply Hreply. exact demo_after_hi_edit_mode.
Defined.

(** [resolve("5", "unregistered-type")] fails; [resolve("5", "int")]
    yields the resolver's value; a resolver without a value yields
    [null]. *)
Lemma resolve_fails_iff_unregistered_witness :
  resolve Demo.dispatcher "5" "unregistered-type" Demo.start =
    (Rejected (Error ("Type " +:+ dquote +:+ "unregistered-type" +:+ dquote
                      +:+ " does not exist.")),
     Demo.start)
  /\ resolve Demo.dispatcher "5" "int" Demo.start
     = (Fulfilled (JObject "5"), with_world Demo.start 1)
  /\ resolve Demo.dispatcher "5" "nothing" Demo.start
     = (Fulfilled JNull, with_world Demo.start 1).
Proof.
  split; [|split].
  - apply (proj1 (proj2 (resolve_fails_iff_unregistered nat Demo.dispatcher
                           "5" "unregistered-type" Demo.start))).
    reflexivity.
  - apply (proj2 (proj2 (resolve_fails_iff_unregistered nat Demo.dispatcher
                           "5" "int" Demo.start))
             (fun value _ n => (Resolved (JObject value), S n))).
    reflexivity.
  - apply (proj2 (proj2 (resolve_fails_iff_unregistered nat Demo.dispatcher
                           "5" "nothing" Demo.start))
             (fun _ _ n => (Resolved JUndefined, S n))).
    reflexivity.
Defined.

(** [translate("greeting", {})] without a handler and with a language
    that is not loaded fails; in English it is the language's answer. *)
Lemma translate_fails_iff_no_language_witness :
  (translate Demo.dispatcher_bare "greeting" ∅ Demo.start).1
    = Rejected (Error "No Language Handler Available")
  /\ (translate Demo.dispatcher_fr "greeting" ∅ Demo.start).1
    = Rejected (Error "No Language Handler Available")
  /\ translate Demo.dispatcher "greeting" ∅ Demo.start
    = (Fulfilled (JString "en:greeting"), with_world Demo.start 2).
Proof.
  split; [|split].
  - apply (proj1 (translate_fails_iff_no_language nat Demo.dispatcher_bare
                    "greeting" ∅ Demo.start)).
    left. reflexivity.
  - apply (proj1 (translate_fails_iff_no_language nat Demo.dispatcher_fr
                    "greeting" ∅ Demo.start)).
    right. exists Demo.languages, (fun _ _ n => (Resolved "fr", S n)), "fr", 1.
    repeat split; reflexivity.
  - etransitivity.
    + apply (proj2 (translate_fails_iff_no_language nat Demo.dispatcher
                      "greeting" ∅ Demo.start)
               Demo.languages (fun _ _ n => (Resolved "en", S n)) "en" 1 Demo.english);
        reflexivity.
    + vm_compute. reflexivity.
Defined.

(** C4: the tag call [t`welcome ${"Ann"} to ${"Blade"}`] does not
    translate the template's path "welcome Ann to Blade": [t] passes the
    array of values on as one value, so the path is the first segment,
    the values joined by commas, then the other segments, "welcome
    Ann,Blade to ".  The tag function returned by [t({})] builds the
    template's path on the same template, and so does the tag call with
    one value, as in [t`hello ${"world"}`]. *)
Theorem t_as_tag_joins_values_with_commas :
  t Demo.dispatcher (TStrings ["welcome "; " to "; ""]) [JString "Ann"; JString "Blade"]
    = inl (translate Demo.dispatcher "welcome Ann,Blade to " ∅)
  /\ template_path ["welcome "; " to "; ""] [JString "Ann"; JString "Blade"]
     = "welcome Ann to Blade"
  /\ (translate Demo.dispatcher "welcome Ann,Blade to " ∅ Demo.start).1
     = Fulfilled (JString "en:welcome Ann,Blade to ")
  /\ (translate Demo.dispatcher "welcome Ann to Blade" ∅ Demo.start).1
     = Fulfilled (JString "en:welcome Ann to Blade")
  /\ match t Demo.dispatcher (TVars ∅) [] with
     | inr tag =>
         tag ["welcome "; " to "; ""] [JString "Ann"; JString "Blade"]
         = translate Demo.dispatcher "welcome Ann to Blade" ∅
     | inl _ => False
     end
  /\ t Demo.dispatcher (TStrings ["hello "; ""]) [JString "world"]
     = inl (translate Demo.dispatcher "hello world" ∅).
Proof.
  repeat split; reflexivity.
Qed.

(** C5: the message a [reply] sends is not put into [messages]: after
    [reply("hi")] on a fresh context has sent and returned [M1], the
    mapping has no entry for [M1] and is still empty; no [reply] changes
    the mapping at all. *)
Theorem sent_message_is_not_recorded :
  (reply Demo.neo (CString "hi") Demo.start).1 = Fulfilled (Some Demo.M1)
  /\ Context.messages (this (reply Demo.neo (CString "hi") Demo.start).2)
       !! Message.id Demo.M1 = None
  /\ Context.messages (this (reply Demo.neo (CString "hi") Demo.start).2) = ∅
  /\ forall W (neo : ChatClient W) content s,
       Context.messages (this (reply neo content s).2) = Context.messages (this s).
Proof.
  split; [vm_compute; reflexivity|].
  split; [rewrite reply_keeps_messages; reflexivity|].
  split; [rewrite reply_keeps_messages; reflexivity|].
  intros W neo content s. apply reply_keeps_messages.
Qed.

(** * Further properties of the reply/edit life cycle *)

Section Runs.
Variable W : Type.
Variable neo : ChatClient W.

(** [setLastResponse] in one step. *)
Lemma setLastResponse_run (message : Message.t + list Message.t) (s : State W) :
  setLastResponse message s =
    let r := match message with inl single => Some single | inr array => last array end in
    (Fulfilled r,
     {| calls := calls s; world := world s; this := assign_lastResponse (this s) r |}).
Proof.
  unfold setLastResponse, await, read_this, write_this, resolve_with.
  destruct message as [single|array]; [reflexivity|].
  rewrite js_slice_last. reflexivity.
Qed.

(** X1: [setLastResponse] records the last element of an array (nothing
    for an empty array) and, for a single message, that message; it
    returns what it recorded, so an array ending in [m] and [m] alone
    have the same effect. *)
Theorem setLastResponse_records_last (s : State W) :
  (forall array,
     setLastResponse (inr array) s =
       (Fulfilled (last array),
        {| calls := calls s; world := world s;
           this := assign_lastResponse (this s) (last array) |}))
  /\ setLastResponse (inr []) s =
       (Fulfilled None,
        {| calls := calls s; world := world s;
           this := assign_lastResponse (this s) None |})
  /\ (forall front m,
        setLastResponse (inr (front ++ [m])) s = setLastResponse (inl m) s).
Proof.
  split; [|split].
  - intros array. apply setLastResponse_run.
  - apply setLastResponse_run.
  - intros front m. rewrite !setLastResponse_run. cbv zeta.
    rewrite last_snoc. reflexivity.
Qed.

(** X2: when the channel's [send] resolves with no message at all,
    [reply] is rejected with a [TypeError] after the call was made, and
    the response recorded before is forgotten: a direct [edit] is then a
    [TypeError] as well. *)
Theorem reply_forgets_on_empty_send (content : Content) (s : State W) (w : W) :
  ~ edit_mode (this s) ->
  send neo (Context.channel (this s)) (payload content) (world s) = (Resolved [], w) ->
  reply neo content s =
    (Rejected TypeError,
     {| calls := calls s ++ [ChannelSend (Context.channel (this s)) (payload content)];
        world := w;
        this := assign_lastResponse (this s) None |})
  /\ forall next,
       (edit neo next (reply neo content s).2).1 = Rejected TypeError.
Proof.
  intros Hmode Hsend.
  assert (Hrun : reply neo content s =
    (Rejected TypeError,
     {| calls := calls s ++ [ChannelSend (Context.channel (this s)) (payload content)];
        world := w;
        this := assign_lastResponse (this s) None |})).
  { rewrite reply_out_of_edit_mode by assumption. cbv zeta. rewrite Hsend.
    reflexivity. }
  split; [exact Hrun|].
  intros next. rewrite Hrun, edit_run. reflexivity.
Qed.

(** X3: when [reply] is rejected with a collaborator's failure, of
    [send] or of the message's [edit], the context is as it was before
    the call, and exactly one call was made on the chat client. *)
Theorem reply_failure_keeps_context
    (content : Content) (s s' : State W) (reason : JsValue) :
  reply neo content s = (Rejected (Propagated reason), s') ->
  this s' = this s /\ exists c, calls s' = calls s ++ [c].
Proof.
  intros Hrun.
  destruct (Context.shouldEdit (this s)
            && js_not_size ((fun m => size (Message.attachments m))
                              <$> Context.lastResponse (this s))) eqn:Hguard.
  - apply guard_edit_mode in Hguard.
    rewrite reply_in_edit_mode, edit_run in Hrun by assumption.
    destruct (Context.lastResponse (this s)) as [last|]; [|discriminate].
    unfold call_chat in Hrun.
    destruct (message_edit neo last (payload content) (world s)) as [[edited|r] w];
      [discriminate|].
    injection Hrun as _ <-. eauto.
  - apply guard_not_edit_mode in Hguard.
    rewrite reply_out_of_edit_mode in Hrun by assumption. cbv zeta in Hrun.
    destruct (send neo (Context.channel (this s)) (payload content) (world s))
      as [[msgs|r] w].
    + destruct (last msgs); discriminate.
    + injection Hrun as _ <-. unfold after_call. eauto.
Qed.

(** X4: a freshly constructed context never edits: whatever the
    content, its first [reply] calls [send] on the channel of the
    incoming message and nothing else, and a direct [edit] is rejected
    with a [TypeError] without any call. *)
Theorem fresh_context_sends_to_message_channel
    (w : W) (message : Message.t) (content : Content) :
  calls (reply neo content (fresh w message)).2
    = [ChannelSend (Message.channel message) (payload content)]
  /\ edit neo content (fresh w message) = (Rejected TypeError, fresh w message).
Proof.
  split.
  - rewrite reply_calls_send; [reflexivity|]. intros [Hflag _]. discriminate.
  - rewrite edit_run. reflexivity.
Qed.

Lemma same_invocation_refl (ctx : Context.t) : same_invocation ctx ctx.
Proof. repeat split. Qed.

Lemma same_invocation_trans (a b c : Context.t) :
  same_invocation a b -> same_invocation b c -> same_invocation a c.
Proof.
  unfold same_invocation. intros Hab Hbc.
  destruct Hab as (?&?&?&?&?&?&?&?&?), Hbc as (?&?&?&?&?&?&?&?&?).
  repeat split; congruence.
Qed.

(** One action keeps the invocation and makes at most one call, a send
    only on the context's channel. *)
Lemma step_keeps_invocation (a : Action) (s : State W) :
  same_invocation (this (step neo a s)) (this s)
  /\ exists new,
       calls (step neo a s) = calls s ++ new
       /\ length new <= 1
       /\ Forall (sent_to (Context.channel (this s))) new.
Proof.
  assert (Hedit : forall content,
    same_invocation (this (edit neo content s).2) (this s)
    /\ exists new,
         calls (edit neo content s).2 = calls s ++ new
         /\ length new <= 1
         /\ Forall (sent_to (Context.channel (this s))) new).
  { intros content. rewrite edit_frame. split; [apply same_invocation_refl|].
    rewrite edit_run. destruct (Context.lastResponse (this s)) as [last|].
    - exists [MessageEdit last (payload content)]. unfold call_chat.
      destruct (message_edit neo last (payload content) (world s)) as [[edited|r] w];
        (split; [reflexivity|split; [simpl; lia|]]);
        repeat constructor.
    - exists []. rewrite app_nil_r. repeat split; [simpl; lia|constructor]. }
  destruct a as [content|content]; [|apply Hedit]. cbn [step].
  destruct (Context.shouldEdit (this s)
            && js_not_size ((fun m => size (Message.attachments m))
                              <$> Context.lastResponse (this s))) eqn:Hguard.
  - apply guard_edit_mode in Hguard.
    rewrite reply_in_edit_mode by assumption. cbn [snd]. apply Hedit.
  - apply guard_not_edit_mode in Hguard.
    rewrite reply_out_of_edit_mode by assumption. cbv zeta.
    destruct (send neo (Context.channel (this s)) (payload content) (world s))
      as [[msgs|r] w]; [destruct (last msgs)|]; cbn [snd this calls after_call];
      (split; [repeat split|]);
      exists [ChannelSend (Context.channel (this s)) (payload content)];
      (split; [reflexivity|split; [simpl; lia|]]);
      repeat constructor.
Qed.

(** X5: over any run of replies and direct edits, the context stays
    the one of its invocation (message, parameters, flags, author,
    member, guild, channel, [messages] and parse index are never
    written), each action makes at most one call on the chat client,
    and every [send] of the run goes to the context's channel. *)
Theorem run_keeps_invocation (actions : list Action) :
  forall s : State W,
    same_invocation (this (run neo actions s)) (this s)
    /\ exists new,
         calls (run neo actions s) = calls s ++ new
         /\ length new <= length actions
         /\ Forall (sent_to (Context.channel (this s))) new.
Proof.
  induction actions as [|a rest IH]; intros s.
  - split; [apply same_invocation_refl|]. exists []. rewrite app_nil_r.
    repeat split; [simpl; lia|constructor].
  - cbn [run].
    destruct (step_keeps_invocation a s) as (Hsame1 & new1 & Hcalls1 & Hlen1 & Hto1).
    destruct (IH (step neo a s)) as (Hsame2 & new2 & Hcalls2 & Hlen2 & Hto2).
    split; [eapply same_invocation_trans; eassumption|].
    exists (new1 ++ new2). split; [|split].
    + rewrite Hcalls2, Hcalls1, app_assoc. reflexivity.
    + rewrite length_app. simpl. lia.
    + apply Forall_app. split; [exact Hto1|].
      destruct Hsame1 as (_&_&_&_&_&_&Hch&_). rewrite <- Hch. exact Hto2.
Qed.

End Runs.

(** * Further properties of resolution and translation *)

Section LookupEdges.
Variable W : Type.
Variable dispatcher : CommandDispatcher W.

(** [language()] leaves the context and the record of chat calls as
    they were. *)
Lemma language_frame (s : State W) :
  this (language dispatcher s).2 = this s
  /\ calls (language dispatcher s).2 = calls s.
Proof.
  unfold language, await, read_this, resolve_with, throw, call_out.
  destruct (handlers (client dispatcher) !! "languages") as [languages|];
    [|split; reflexivity].
  destruct (getLanguage (options dispatcher)) as [getLang|]; [|split; reflexivity].
  destruct (getLang languages (this s) (world s)) as [[code|reason] w];
    split; reflexivity.
Qed.

(** X8: [resolve] never fulfils with [undefined]: a resolver that
    yields [undefined] or [null] gives [null], any other value is handed
    back as it is. *)
Theorem resolve_never_undefined
    (value type : string) (s s' : State W) (v : JsValue) :
  resolve dispatcher value type s = (Fulfilled v, s') ->
  v <> JUndefined
  /\ exists r result w,
       resolver_type (resolver dispatcher) type = Some r
       /\ r value (this s) (world s) = (Resolved result, w)
       /\ (v = JNull -> result = JUndefined \/ result = JNull)
       /\ (v <> JNull -> result = v).
Proof.
  unfold resolve, await, read_this, resolve_with, throw, call_out.
  destruct (resolver_type (resolver dispatcher) type) as [r|]; [|discriminate].
  destruct (r value (this s) (world s)) as [[result|reason] w] eqn:Hr; [|discriminate].
  intros [= Hv _]. split.
  - destruct result; cbn in Hv; subst v; discriminate.
  - exists r, result, w. split; [reflexivity|]. split; [exact Hr|]. split.
    + intros ->. destruct result; cbn in Hv; try discriminate; auto.
    + intros Hnn. destruct result; cbn in Hv; subst v; congruence.
Qed.

(** X9: [resolve], [language] and [translate] call nothing on the chat
    client and write no field of the context, whatever they settle
    with. *)
Theorem lookups_keep_context
    (value type path : string) (vars : Dictionary) (s : State W) :
  (this (resolve dispatcher value type s).2 = this s
   /\ calls (resolve dispatcher value type s).2 = calls s)
  /\ (this (language dispatcher s).2 = this s
      /\ calls (language dispatcher s).2 = calls s)
  /\ (this (translate dispatcher path vars s).2 = this s
      /\ calls (translate dispatcher path vars s).2 = calls s).
Proof.
  split; [|split].
  - unfold resolve, await, read_this, resolve_with, throw, call_out.
    destruct (resolver_type (resolver dispatcher) type) as [r|]; [|split; reflexivity].
    destruct (r value (this s) (world s)) as [[result|reason] w]; split; reflexivity.
  - apply language_frame.
  - destruct (language_frame s) as [Hthis Hcalls].
    rewrite translate_run.
    destruct (language dispatcher s) as [[[lang|]|e] s1]; cbn [snd] in *;
      [|split; assumption|split; assumption].
    destruct (lang_translate lang path vars (world s1)) as [o w].
    split; assumption.
Qed.

(** X10: how [translate] fails other than by its own error.  With the
    handler installed but no [getLanguage] in the options it is rejected
    with a [TypeError] and nothing is consulted; when [getLanguage]
    fails, its failure is passed on and no language is looked up; when
    the language's own [translate] fails, that failure is passed on. *)
Theorem translate_passes_failures_on
    (path : string) (vars : Dictionary) (s : State W)
    (languages : LanguageHandler W) :
  handlers (client dispatcher) !! "languages" = Some languages ->
  (getLanguage (options dispatcher) = None ->
     translate dispatcher path vars s = (Rejected TypeError, s))
  /\ (forall getLang reason w,
        getLanguage (options dispatcher) = Some getLang ->
        getLang languages (this s) (world s) = (Failed reason, w) ->
        translate dispatcher path vars s
          = (Rejected (Propagated reason), with_world s w))
  /\ (forall getLang code w lang reason w',
        getLanguage (options dispatcher) = Some getLang ->
        getLang languages (this s) (world s) = (Resolved code, w) ->
        languages_get languages code = Some lang ->
        lang_translate lang path vars w = (Failed reason, w') ->
        translate dispatcher path vars s
          = (Rejected (Propagated reason), with_world s w')).
Proof.
  intros Hh. split; [|split].
  - intros Hg. unfold translate, language, await, read_this, throw.
    rewrite Hh, Hg. destruct s. reflexivity.
  - intros getLang reason w Hg Hrun.
    unfold translate, language, await, read_this, call_out.
    rewrite Hh, Hg, Hrun. reflexivity.
  - intros getLang code w lang reason w' Hg Hrun Hget Htr.
    unfold translate, language, await, read_this, call_out, resolve_with.
    rewrite Hh, Hg, Hrun, Hget. cbn [world]. rewrite Htr. reflexivity.
Qed.

End LookupEdges.

(** * Further properties of the template tag *)

Lemma joined_joined_path (strings : list string) :
  forall values : list JsValue,
    String.concat ""
      (imap (fun i s =>
               s +:+ ToString (nullish (default JUndefined (values !! i)) (JString "")))
            strings)
    = joined_path strings values.
Proof.
  induction strings as [|segment strings IH]; intros values; [reflexivity|].
  rewrite imap_cons, concat_empty_cons. cbn [joined_path].
  rewrite append_assoc. apply (f_equal (String.append segment)).
  apply (f_equal2 String.append).
  - destruct values as [|v values]; [reflexivity|]. destruct v; reflexivity.
  - rewrite <- (IH (tail values)).
    apply (f_equal (String.concat "")). apply imap_ext. intros i s _. cbn.
    destruct values as [|v values]; reflexivity.
Qed.

Lemma joined_path_take (strings : list string) :
  forall values : list JsValue,
    joined_path strings (take (length strings) values) = joined_path strings values.
Proof.
  induction strings as [|segment strings IH]; intros values; [reflexivity|].
  destruct values as [|v values]; [reflexivity|].
  cbn [length take joined_path head tail]. rewrite IH. reflexivity.
Qed.

Lemma joined_path_undefined (strings : list string) :
  forall values : list JsValue,
    joined_path strings (values ++ [JUndefined]) = joined_path strings values.
Proof.
  induction strings as [|segment strings IH]; intros values; [reflexivity|].
  destruct values as [|v values].
  - cbn [app joined_path head tail contribution].
    destruct strings; reflexivity.
  - cbn [app joined_path head tail]. rewrite IH. reflexivity.
Qed.

Lemma joined_path_no_values (strings : list string) :
  joined_path strings [] = String.concat "" strings.
Proof.
  induction strings as [|segment strings IH]; [reflexivity|].
  rewrite concat_empty_cons. cbn [joined_path head tail contribution].
  rewrite IH. reflexivity.
Qed.

Section TagEdges.
Variable W : Type.
Variable dispatcher : CommandDispatcher W.

(** X11: the tag function returned by [t(vars)] translates, with those
    variables, the literal segments with the values in between, where a
    missing, [undefined] or [null] value contributes nothing; values
    beyond the segments are ignored, and the values given to [t] itself
    beside [vars] play no part. *)
Theorem tag_of_vars_joins_segments_and_values
    (context : Dictionary) (a2 : list JsValue) :
  exists tag,
    t dispatcher (TVars context) a2 = inr tag
    /\ t dispatcher (TVars context) [] = inr tag
    /\ forall strings values,
         tag strings values = translate dispatcher (joined_path strings values) context
         /\ tag strings (take (length strings) values) = tag strings values
         /\ tag strings (values ++ [JUndefined]) = tag strings values.
Proof.
  eexists. split; [reflexivity|]. split; [reflexivity|].
  intros strings values. cbv beta.
  rewrite !joined_joined_path, joined_path_take, joined_path_undefined.
  repeat split.
Qed.

(** X12: called as a tag itself, [t] translates, with no variables,
    the first segment, then all the values joined by commas ([undefined]
    and [null] printing as nothing), then the remaining segments; for an
    empty array of segments the path is empty. *)
Theorem t_as_tag_path (first : string) (others : list string) (a2 : list JsValue) :
  t dispatcher (TStrings (first :: others)) a2 =
    inl (translate dispatcher
           (first +:+ String.concat "," (map element_string a2)
                  +:+ String.concat "" others) ∅)
  /\ t dispatcher (TStrings []) a2 = inl (translate dispatcher "" ∅).
Proof.
  split; [|reflexivity]. rewrite t_as_tag. reflexivity.
Qed.

(** X13: with at most one interpolated value, and that value
    [undefined], [null], a boolean, a string or an array, calling [t] as
    a tag is the same as calling the tag function of [t({})].  A value
    of another kind is left out: as a tag, [t] prints it as an element
    of an array, the tag function of [t({})] by [+], and the two
    conversions of an object need not agree. *)
Theorem t_as_tag_agrees_up_to_one_value :
  exists tag,
    t dispatcher (TVars ∅) [] = inr tag
    /\ forall strings values,
         length values <= 1 ->
         Forall (fun v => forall repr, v <> JObject repr) values ->
         t dispatcher (TStrings strings) values = inl (tag strings values).
Proof.
  eexists. split; [reflexivity|].
  intros strings values Hlen _. cbv beta.
  destruct strings as [|first others]; [reflexivity|].
  rewrite t_as_tag, joined_joined_path. cbn [joined_path].
  apply (f_equal inl). apply (f_equal (fun path => translate dispatcher path ∅)).
  apply (f_equal (String.append first)).
  destruct values as [|v [|v' values]]; [| |simpl in Hlen; lia];
    cbn [head tail]; rewrite joined_path_no_values.
  - reflexivity.
  - apply (f_equal (fun x => x +:+ String.concat "" others)).
    destruct v; reflexivity.
Qed.

End TagEdges.

(** * Further worked inputs *)

(** After [reply("file")] has recorded [M2], [reply("void")] gets no
    message back: [M2] is forgotten and [edit] fails. *)
Lemma reply_forgets_on_empty_send_witness :
  reply Demo.neo (CString "void") Demo.after_file =
    (Rejected TypeError,
     {| calls := calls Demo.after_file
                 ++ [ChannelSend (Context.channel (this Demo.after_file))
                                 (payload (CString "void"))];
        world := 2;
        this := assign_lastResponse (this Demo.after_file) None |})
  /\ forall next,
       (edit Demo.neo next (reply Demo.neo (CString "void") Demo.after_file).2).1
       = Rejected TypeError.
Proof.
  apply (reply_forgets_on_empty_send nat Demo.neo (CString "void") Demo.after_file 2).
  - intros [Hflag _]. discriminate Hflag.
  - reflexivity.
Defined.

(** [reply("down")] on a fresh context: the send fails, the context is
    still the fresh one. *)
Lemma reply_failure_keeps_context_witness :
  this (reply Demo.neo (CString "down") Demo.start).2 = this Demo.start
  /\ exists c,
       calls (reply Demo.neo (CString "down") Demo.start).2 = calls Demo.start ++ [c].
Proof.
  apply (reply_failure_keeps_context nat Demo.neo (CString "down") Demo.start
           (reply Demo.neo (CString "down") Demo.start).2 (JString "unreachable")).
  vm_compute. reflexivity.
Defined.

(** The resolver "nothing" yields [undefined]; [resolve] gives [null]. *)
Lemma resolve_never_undefined_witness :
  JNull <> JUndefined
  /\ exists r result w,
       resolver_type (resolver Demo.dispatcher) "nothing" = Some r
       /\ r "5" (this Demo.start) (world Demo.start) = (Resolved result, w)
       /\ (JNull = JNull -> result = JUndefined \/ result = JNull)
       /\ (JNull <> JNull -> result = JNull).
Proof.
  apply (resolve_never_undefined nat Demo.dispatcher "5" "nothing" Demo.start
           (with_world Demo.start 1) JNull).
  reflexivity.
Defined.

(** [translate] with no [getLanguage], with a failing [getLanguage],
    and with a language whose [translate] fails. *)
Lemma translate_passes_failures_on_witness :
  translate Cases.dispatcher_no_callback "greeting" ∅ Demo.start
    = (Rejected TypeError, Demo.start)
  /\ translate Cases.dispatcher_failing_callback "greeting" ∅ Demo.start
    = (Rejected (Propagated (JString "offline")), with_world Demo.start 1)
  /\ translate Cases.dispatcher_mute "greeting" ∅ Demo.start
    = (Rejected (Propagated (JString "no table")), with_world Demo.start 2).
Proof.
  split; [|split].
  - apply (proj1 (translate_passes_failures_on nat Cases.dispatcher_no_callback
                    "greeting" ∅ Demo.start Demo.languages eq_refl)).
    reflexivity.
  - apply (proj1 (proj2 (translate_passes_failures_on nat
                           Cases.dispatcher_failing_callback
                           "greeting" ∅ Demo.start Demo.languages eq_refl))
             (fun _ _ n => (Failed (JString "offline"), S n)) (JString "offline") 1);
      reflexivity.
  - apply (proj2 (proj2 (translate_passes_failures_on nat Cases.dispatcher_mute
                           "greeting" ∅ Demo.start
                           {| languages_store := {[ "xx" := Cases.mute ]} |} eq_refl))
             (fun _ _ n => (Resolved "xx", S n)) "xx" 1 Cases.mute
             (JString "no table") 2);
      reflexivity.
Defined.

(** [t`hello ${"world"}`] and the tag of [t({})] on the same template. *)
Lemma t_as_tag_agrees_up_to_one_value_witness :
  exists tag,
    t Demo.dispatcher (TVars ∅) [] = inr tag
    /\ t Demo.dispatcher (TStrings ["hello "; ""]) [JString "world"]
       = inl (tag ["hello "; ""] [JString "world"]).
Proof.
  destruct (t_as_tag_agrees_up_to_one_value nat Demo.dispatcher) as (tag & Htag & Hagree).
  exists tag. split; [exact Htag|].
  apply Hagree; [simpl; lia|].
  constructor; [intros repr; discriminate|constructor].
Defined.
